(** * elem::js::Value — a shallow embedding of [runtime/elem/Value.h]

    The header defines a tagged union over the JavaScript value kinds
    (a thin wrapper around [std::variant]) together with type checks,
    throwing accessors, a default-guarded object lookup, a string-vector
    bridge and a diagnostic renderer.  This development embeds those
    operations as executable Rocq functions and proves the properties the
    specification states about them.

    Conventions of the embedding:
    - [std::string] is [string]; [std::vector<T>] is [list T];
    - [std::map<String, Value>] is an association list kept strictly sorted
      by key ([std::less<std::string>], the byte-wise lexicographic order),
      built only through [map_insert];
    - [size_t] is [N] with its 64-bit wrap-around written out;
    - operations that can throw return in the [result] monad. *)

From Stdlib Require Import ZArith NArith Ascii String List Lia Bool.
From Stdlib Require Import DecimalString Sorting.Sorted.
From stdpp Require Import base tactics option list strings sorting.

Local Open Scope N_scope.
#[local] Set Warnings "-register-all".

(** ** Exceptions and the result monad *)

(** The exceptions the header's library calls can raise.  Indexing a vector
    past its end with [operator[]] raises nothing in C++ (it is undefined
    behaviour); the embedding reports it as a failure of its own kind so
    that a proof of success also rules it out. *)
Inductive exception : Type :=
| bad_variant_access   (* std::get<T> on a variant holding another type *)
| out_of_range         (* std::map::at, std::string::substr *)
| index_past_end.      (* operator[] outside [0, size) *)

Inductive result (A : Type) : Type :=
| Ok (a : A)
| Throw (e : exception).
Arguments Ok {A} a.
Arguments Throw {A} e.

#[global] Instance result_ret : MRet result := fun _ a => Ok a.
#[global] Instance result_bind : MBind result := fun _ _ f m =>
  match m with
  | Ok a => f a
  | Throw e => Throw e
  end.
#[global] Instance result_fmap : FMap result := fun _ _ f m =>
  match m with
  | Ok a => Ok (f a)
  | Throw e => Throw e
  end.

(** ** [size_t] arithmetic *)

Definition SIZE_BITS : N := 64.
Definition SIZE_MODULUS : N := 2 ^ SIZE_BITS.

(** [a - b] on [size_t]: unsigned subtraction.  When [b] exceeds [a] the
    result wraps around, i.e. the borrow adds [2^64] (lemma
    [size_sub_modular] relates this to arithmetic modulo [2^64]). *)
Definition size_sub (a b : N) : N :=
  if b <=? a then a - b else a + SIZE_MODULUS - b.

(** ** Strings and streams *)

Definition string_size (s : string) : N := N.of_nat (String.length s).

(** [s.substr(pos, count)]: throws [out_of_range] when [pos > size()],
    otherwise the characters [pos, min(pos + count, size())). *)
Definition substr (s : string) (pos count : N) : result string :=
  if string_size s <? pos then Throw out_of_range
  else
    let rlen := N.min count (string_size s - pos) in
    Ok (String.substring (N.to_nat pos) (N.to_nat rlen) s).

(** The counted loop [for (size_t i = 0; i < bound; ++i) body], threading
    the state the body mutates. *)
Fixpoint for_from {S : Type} (i : N) (trips : nat)
    (body : N → S → result S) (st : S) : result S :=
  match trips with
  | O => Ok st
  | Datatypes.S trips' => st' ← body i st; for_from (N.succ i) trips' body st'
  end.
Definition for_range {S : Type} (bound : N)
    (body : N → S → result S) (st : S) : result S :=
  for_from 0 (N.to_nat bound) body st.

(** The range-based loop [for (const auto& e : c) body]. *)
Section ForEach.
Context {A S : Type} (body : A → S → result S).

Fixpoint for_each_go (c : list A) (st : S) : result S :=
  match c with
  | [] => Ok st
  | e :: c' => st' ← body e st; for_each_go c' st'
  end.
End ForEach.
Definition for_each {A S : Type} (c : list A)
    (body : A → S → result S) (st : S) : result S :=
  for_each_go body c st.

(** [v[i]] on a vector. *)
Definition vector_at {A : Type} (v : list A) (i : N) : result A :=
  match v !! N.to_nat i with
  | Some x => Ok x
  | None => Throw index_past_end
  end.
Definition vector_size {A : Type} (v : list A) : N := N.of_nat (length v).

(** ** Floating-point numbers and [std::to_string]

    [Number] is [double] and the elements of a [Float32Array] are [float].
    Both are IEEE-754 binary formats; a datum is either a signed dyadic
    rational [(-1)^neg * m * 2^e], an infinity or a NaN.  [decode_bits]
    reads one off its bit pattern. *)
Inductive ieee754 : Type :=
| Finite (neg : bool) (m : N) (e : Z)
| Infinity (neg : bool)
| NaN (neg : bool).

#[global] Instance ieee754_eq_dec : EqDecision ieee754.
Proof. solve_decision. Defined.

Definition decode_bits (ebits fbits : Z) (w : Z) : ieee754 :=
  let frac := Z.land w (Z.ones fbits) in
  let ex := Z.land (Z.shiftr w fbits) (Z.ones ebits) in
  let neg := Z.testbit w (ebits + fbits) in
  let bias := (2 ^ (ebits - 1) - 1)%Z in
  if (ex =? Z.ones ebits)%Z then
    if (frac =? 0)%Z then Infinity neg else NaN neg
  else if (ex =? 0)%Z then Finite neg (Z.to_N frac) (1 - bias - fbits)
  else Finite neg (Z.to_N (frac + 2 ^ fbits)) (ex - bias - fbits).

Definition double_of_bits : Z → ieee754 := decode_bits 11 52.
Definition float_of_bits : Z → ieee754 := decode_bits 8 23.

Definition dec_of_N (n : N) : string := NilZero.string_of_uint (N.to_uint n).

(** [round(m * 2^e)] to the nearest integer, ties to even: the rounding
    [printf] applies in the default rounding mode. *)
Definition round_scaled (m : N) (e : Z) : N :=
  if (0 <=? e)%Z then m * 2 ^ Z.to_N e
  else
    let d := 2 ^ Z.to_N (- e) in
    let q := m / d in
    let r := m mod d in
    if 2 * r <? d then q
    else if d <? 2 * r then q + 1
    else if N.even q then q else q + 1.

Fixpoint zeros (n : nat) : string :=
  match n with
  | O => ""
  | Datatypes.S n' => "0" +:+ zeros n'
  end.

(** Left-pad [s] with zeros up to [width] characters. *)
Definition zero_pad (width : nat) (s : string) : string :=
  zeros (width - String.length s) +:+ s.

(** [printf("%f", x)]: sign, integral digits, a point and six fractional
    digits; infinities and NaNs print as words. *)
Definition printf_f (x : ieee754) : string :=
  let sign (neg : bool) := if neg then "-" else "" in
  match x with
  | NaN neg => sign neg +:+ "nan"
  | Infinity neg => sign neg +:+ "inf"
  | Finite neg m e =>
      let scaled := round_scaled (m * 10 ^ 6) e in
      sign neg +:+ dec_of_N (scaled / 10 ^ 6) +:+ "." +:+
        zero_pad 6 (dec_of_N (scaled mod 10 ^ 6))
  end.

(** [printf("%d", n)]. *)
Definition printf_d (n : Z) : string := NilZero.string_of_int (Z.to_int n).

(** The [std::to_string] overloads the header reaches: [double], [float]
    (promoted to [double], which keeps the value) and, for a [bool]
    argument, [int] after integral promotion. *)
Definition to_string_double (x : ieee754) : string := printf_f x.
Definition to_string_float (x : ieee754) : string := printf_f x.
Definition to_string_int (n : Z) : string := printf_d n.

(** ** The value model *)

(** [Function] is [std::function<Value(Array)>], an opaque host callable.
    The header never inspects or calls it, so it is carried as a handle
    into the host's registry of callables. *)
Inductive Function : Type :=
| HostCallable (handle : N).

(** [Value] wraps [VarType], the [std::variant] over the nine alternatives,
    listed in the order of the variant's declaration. *)
Inductive Value : Type :=
| VUndefined
| VNull
| VBoolean (arg : bool)
| VNumber (arg : ieee754)
| VString (arg : string)
| VObject (arg : list (string * Value))
| VArray (arg : list Value)
| VFloat32Array (arg : list ieee754)
| VFunction (arg : Function).

Definition Boolean : Type := bool.
Definition Number : Type := ieee754.
Definition Object : Type := list (string * Value).
Definition Array : Type := list Value.
Definition Float32Array : Type := list ieee754.

(** *** Constructors *)

(** [Value()] creates an undefined value. *)
Definition Value_default : Value := VUndefined.

(** [Value(std::vector<std::string> const&)]: pushes [Value(str)] for each
    string, in order, then stores the array. *)
Definition Value_of_string_vector (v : list string) : Value :=
  let array : Array :=
    fold_left (fun array str => array ++ [VString str]) v [] in
  VArray array.

(** *** Type checks ([std::holds_alternative]) *)

Definition isUndefined (v : Value) : bool :=
  match v with VUndefined => true | _ => false end.
Definition isNull (v : Value) : bool :=
  match v with VNull => true | _ => false end.
Definition isBool (v : Value) : bool :=
  match v with VBoolean _ => true | _ => false end.
Definition isNumber (v : Value) : bool :=
  match v with VNumber _ => true | _ => false end.
Definition isString (v : Value) : bool :=
  match v with VString _ => true | _ => false end.
Definition isArray (v : Value) : bool :=
  match v with VArray _ => true | _ => false end.
Definition isFloat32Array (v : Value) : bool :=
  match v with VFloat32Array _ => true | _ => false end.
Definition isObject (v : Value) : bool :=
  match v with VObject _ => true | _ => false end.
Definition isFunction (v : Value) : bool :=
  match v with VFunction _ => true | _ => false end.

(** The nine predicates, in the order the header declares them. *)
Definition type_checks (v : Value) : list bool :=
  [ isUndefined v; isNull v; isBool v; isNumber v; isString v;
    isArray v; isFloat32Array v; isObject v; isFunction v ].

(** *** Casts and getters ([std::get], which throws on a mismatch) *)

Definition to_Boolean (v : Value) : result Boolean :=
  match v with VBoolean b => Ok b | _ => Throw bad_variant_access end.
Definition to_Number (v : Value) : result Number :=
  match v with VNumber x => Ok x | _ => Throw bad_variant_access end.
Definition to_String (v : Value) : result string :=
  match v with VString s => Ok s | _ => Throw bad_variant_access end.
Definition to_Array (v : Value) : result Array :=
  match v with VArray a => Ok a | _ => Throw bad_variant_access end.

Definition getArray (v : Value) : result Array :=
  match v with VArray a => Ok a | _ => Throw bad_variant_access end.
Definition getFloat32Array (v : Value) : result Float32Array :=
  match v with VFloat32Array a => Ok a | _ => Throw bad_variant_access end.
Definition getObject (v : Value) : result Object :=
  match v with VObject o => Ok o | _ => Throw bad_variant_access end.
Definition getFunction (v : Value) : result Function :=
  match v with VFunction f => Ok f | _ => Throw bad_variant_access end.
Definition getNumber (v : Value) : result Number :=
  match v with VNumber x => Ok x | _ => Throw bad_variant_access end.

(** What the expression [T(value)] of [getWithDefault] goes through: one
    of the four conversion operators, or the copy constructor when [T] is
    [Value] itself.  [cast_reads v] tells whether [v] holds the
    alternative the conversion reads; when it does not, the conversion
    throws. *)
Class Castable (T : Type) : Type := {
  cast : Value → result T;
  cast_reads : Value → bool;
  cast_mismatch :
    ∀ v : Value, cast_reads v = false → cast v = Throw bad_variant_access
}.

#[global] Instance Castable_Boolean : Castable Boolean.
Proof.
  refine {| cast := to_Boolean; cast_reads := isBool |}.
  intros v Hv. destruct v; simpl in *; congruence.
Defined.
#[global] Instance Castable_Number : Castable Number.
Proof.
  refine {| cast := to_Number; cast_reads := isNumber |}.
  intros v Hv. destruct v; simpl in *; congruence.
Defined.
#[global] Instance Castable_String : Castable string.
Proof.
  refine {| cast := to_String; cast_reads := isString |}.
  intros v Hv. destruct v; simpl in *; congruence.
Defined.
#[global] Instance Castable_Array : Castable Array.
Proof.
  refine {| cast := to_Array; cast_reads := isArray |}.
  intros v Hv. destruct v; simpl in *; congruence.
Defined.
#[global] Instance Castable_Value : Castable Value.
Proof.
  refine {| cast := Ok; cast_reads := fun _ => true |}.
  intros v Hv. discriminate Hv.
Defined.

(** *** [std::map<String, Value>] *)

(** [std::less<std::string>]: byte-wise lexicographic comparison. *)
Definition key_less (a b : string) : bool := String.ltb a b.
(** Two keys are equivalent when neither is less than the other. *)
Definition key_equiv (a b : string) : bool :=
  negb (key_less a b) && negb (key_less b a).

(** [m.count(k)]: the number of entries whose key is equivalent to [k]. *)
Fixpoint map_count (m : Object) (k : string) : N :=
  match m with
  | [] => 0
  | (k', _) :: m' => if key_equiv k' k then 1 else map_count m' k
  end.

(** [m.at(k)]: the mapped value, or [std::out_of_range]. *)
Fixpoint map_at (m : Object) (k : string) : result Value :=
  match m with
  | [] => Throw out_of_range
  | (k', v) :: m' => if key_equiv k' k then Ok v else map_at m' k
  end.

(** [m.insert({k, v})]: the entry goes to its place in key order; a map
    that already has an equivalent key is left as it is. *)
Fixpoint map_insert (k : string) (v : Value) (m : Object) : Object :=
  match m with
  | [] => [(k, v)]
  | (k', v') :: m' =>
      if key_less k k' then (k, v) :: (k', v') :: m'
      else if key_less k' k then (k', v') :: map_insert k v m'
      else (k', v') :: m'
  end.

(** [Object({{k0, v0}, {k1, v1}, ...})]: the initializer-list constructor
    inserts the entries one after the other into an empty map. *)
Definition insert_entry (m : Object) (kv : string * Value) : Object :=
  let '(k, v) := kv in map_insert k v m.
Definition Object_of_entries (init : list (string * Value)) : Object :=
  fold_left insert_entry init [].

(** *** [getWithDefault] *)

Definition getWithDefault {T : Type} `{Castable T}
    (self : Value) (k : string) (v : T) : result T :=
  o ← getObject self;
  if 0 <? map_count o k then
    x ← map_at o k;
    cast x
  else Ok v.

(** *** [toString] *)

Definition LF : string := String (ascii_of_nat 10) "".

(** [std::visit] over the variant.  The recursive calls on the elements of
    an array go through [map], which keeps the recursion structural:
    [vector_at (map toString arg) i] is [toString] of [arg[i]] when [i] is
    in range (lemma [vector_at_map]). *)
Fixpoint toString (v : Value) : result string :=
  match v with
  | VUndefined => Ok "undefined"
  | VNull => Ok "null"
  | VBoolean arg => Ok (to_string_int (Z.b2z arg))
  | VNumber arg => Ok (to_string_double arg)
  | VString arg => Ok arg
  | VArray arg =>
      ss ← for_range (N.min 3 (vector_size arg))
             (fun i ss =>
                e ← vector_at (map toString arg) i;
                s ← e;
                Ok (ss +:+ s +:+ ", "))
             "[";
      if 3 <? vector_size arg then
        let ss := ss +:+ "...]" in
        Ok ss
      else
        let s := ss in
        r ← substr s 0 (size_sub (string_size s) 2);
        Ok (r +:+ "]")
  | VFloat32Array arg =>
      ss ← for_range (N.min 3 (vector_size arg))
             (fun i ss =>
                x ← vector_at arg i;
                Ok (ss +:+ to_string_float x +:+ ", "))
             "[";
      if 3 <? vector_size arg then
        let ss := ss +:+ "...]" in
        Ok ss
      else
        let s := ss in
        r ← substr s 0 (size_sub (string_size s) 2);
        Ok (r +:+ "]")
  | VObject arg =>
      ss ← for_each arg
             (fun '(k, v) ss =>
                s ← toString v;
                Ok (ss +:+ "    " +:+ k +:+ ": " +:+ s +:+ LF))
             ("{" +:+ LF);
      let ss := ss +:+ "}" +:+ LF in
      Ok ss
  | VFunction _ => Ok "[Object Function]"
  end.

(** *** [toStringVector] *)

Definition toStringVector (self : Value) : result (list string) :=
  let array_of_strings : list string := [] in
  if isArray self then
    a ← getArray self;
    for_each a
      (fun e array_of_strings =>
         s ← toString e; Ok (array_of_strings ++ [s]))
      array_of_strings
  else Ok array_of_strings.

(** *** [operator<<] *)


(** ** The runtime bindings

    [RuntimeBindings] hands the values above to the runtime.  The runtime
    itself, the JSON parser and the serializer are outside the header;
    what is embedded here is the code the bindings run themselves: the
    callback that collects queued events and the loop that fills the
    table of channel pointers. *)

(** The object the event callback builds:
    [Object({{"type", type}, {"event", evt}})], converted to a [Value]. *)
Definition event_object (type : string) (evt : Value) : Value :=
  VObject (Object_of_entries [("type", VString type); ("event", evt)]).

(** The callback [process_queued_events] passes to the runtime: it pushes
    the event object onto the captured [batch]. *)
Definition queued_event_callback (batch : Array)
    (type : string) (evt : Value) : Array :=
  batch ++ [event_object type evt].

(** The batch [process_queued_events] serializes: it starts empty and the
    runtime calls the callback on it once for each queued event.  The
    calls the runtime makes are given as the list [queued] of their
    arguments, in the order of the calls. *)
Definition queued_events_batch (queued : list (string * Value)) : Array :=
  let batch : Array := [] in
  fold_left (fun batch '(type, evt) => queued_event_callback batch type evt)
    queued batch.

(** [a * b] on [size_t]: unsigned multiplication, modulo [2^64]. *)
Definition size_mul (a b : N) : N := (a * b) mod SIZE_MODULUS.

(** [arr[i] = x] on a [std::array]: a store outside [0, size) is reported
    as [index_past_end]. *)
Definition array_store {A : Type} (arr : list A) (i : N) (x : A)
    : result (list A) :=
  if i <? vector_size arr then Ok (<[N.to_nat i := x]> arr)
  else Throw index_past_end.

(** The table [std::array<float*, 32>] of [process] and
    [add_shared_resource]. *)
Definition CHANNEL_TABLE_SIZE : nat := 32.

(** The loop that fills the table: entry [i] becomes
    [data + (i * numFrames)].  A pointer into the caller's buffer is
    carried as its offset, in samples, from the start of the buffer; an
    entry the loop has not written is [None]. *)
Definition channel_pointers (numChannels numFrames : N)
    : result (list (option N)) :=
  let outChans : list (option N) := replicate CHANNEL_TABLE_SIZE None in
  for_range numChannels
    (fun i outChans => array_store outChans i (Some (size_mul i numFrames)))
    outChans.

(** ** Vocabulary of the statements *)

(** What the element loop of a sequence branch leaves in the stream after
    the opening bracket: every rendered element followed by the
    separator. *)
Definition trail (es : list string) : string :=
  foldr (fun e acc => e +:+ ", " +:+ acc) "" es.

(** The statements that follow the element loop, on the stream the loop
    leaves. *)
Definition finish_preview (size : N) (es : list string) : result string :=
  if 3 <? size then Ok ("[" +:+ trail es +:+ "...]")
  else
    r ← substr ("[" +:+ trail es) 0
          (size_sub (string_size ("[" +:+ trail es)) 2);
    Ok (r +:+ "]").

(** One line of an object block. *)
Definition object_line (k s : string) : string :=
  "    " +:+ k +:+ ": " +:+ s +:+ LF.

(** The text [toString] produces, as a plain function. *)
Definition rendered (v : Value) : string :=
  match toString v with
  | Ok s => s
  | Throw _ => ""
  end.

Definition key_lt (a b : string) : Prop := key_less a b = true.

(** Entries compare by key, as [std::map::value_compare] does. *)
Definition entry_lt (e1 e2 : string * Value) : Prop := key_lt e1.1 e2.1.

(** The representation invariant of a [std::map]: entries in strictly
    increasing key order (so keys are unique). *)
Definition map_ok (m : Object) : Prop := StronglySorted entry_lt m.

Definition keys (m : list (string * Value)) : list string := m.*1.

(** The value of the first entry an initializer list gives for [k]. *)
Fixpoint first_entry (init : list (string * Value)) (k : string)
    : option Value :=
  match init with
  | [] => None
  | (k', v) :: init' =>
      if String.eqb k' k then Some v else first_entry init' k
  end.

(** Sample numbers, by bit pattern. *)
Definition double_1 : Number := double_of_bits 0x3FF0000000000000.
Definition double_2 : Number := double_of_bits 0x4000000000000000.
Definition double_3 : Number := double_of_bits 0x4008000000000000.
Definition double_4 : Number := double_of_bits 0x4010000000000000.
Definition double_5 : Number := double_of_bits 0x4014000000000000.
Definition double_42 : Number := double_of_bits 0x4045000000000000.
Definition double_nan : Number := double_of_bits 0x7FF8000000000000.
Definition double_inf : Number := double_of_bits 0x7FF0000000000000.
Definition double_neg_inf : Number := double_of_bits 0xFFF0000000000000.
Definition float_1 : ieee754 := float_of_bits 0x3F800000.
Definition float_half : ieee754 := float_of_bits 0x3F000000.

(** ** Induction over nested values *)

Section ValueInd.
Variable P : Value → Prop.
Hypothesis Pundefined : P VUndefined.
Hypothesis Pnull : P VNull.
Hypothesis Pboolean : ∀ b, P (VBoolean b).
Hypothesis Pnumber : ∀ x, P (VNumber x).
Hypothesis Pstring : ∀ s, P (VString s).
Hypothesis Pobject :
  ∀ o : Object, Forall (fun kv => P kv.2) o → P (VObject o).
Hypothesis Parray : ∀ a : Array, Forall P a → P (VArray a).
Hypothesis Pfloat32array : ∀ a, P (VFloat32Array a).
Hypothesis Pfunction : ∀ f, P (VFunction f).

Fixpoint Value_nested_ind (v : Value) : P v :=
  match v with
  | VUndefined => Pundefined
  | VNull => Pnull
  | VBoolean b => Pboolean b
  | VNumber x => Pnumber x
  | VString s => Pstring s
  | VObject o =>
      Pobject o
        ((fix entries (l : list (string * Value)) :
            Forall (fun kv => P kv.2) l :=
            match l with
            | [] => List.Forall_nil _
            | kv :: l' =>
                List.Forall_cons _ kv l' (Value_nested_ind kv.2) (entries l')
            end) o)
  | VArray a =>
      Parray a
        ((fix elems (l : list Value) : Forall P l :=
            match l with
            | [] => List.Forall_nil _
            | e :: l' =>
                List.Forall_cons _ e l' (Value_nested_ind e) (elems l')
            end) a)
  | VFloat32Array a => Pfloat32array a
  | VFunction f => Pfunction f
  end.
End ValueInd.

(** * Supporting lemmas *)

(** ** Strings *)

Lemma string_app_assoc (s1 s2 s3 : string) :
  (s1 +:+ s2) +:+ s3 = s1 +:+ (s2 +:+ s3).
Proof.
  induction s1 as [|c s1 IH]; [reflexivity|].
  change (String c ((s1 +:+ s2) +:+ s3) = String c (s1 +:+ (s2 +:+ s3))).
  by rewrite IH.
Qed.

Lemma string_app_nil_r (s : string) : s +:+ "" = s.
Proof.
  induction s as [|c s IH]; [reflexivity|].
  change (String c (s +:+ "") = String c s). by rewrite IH.
Qed.

Lemma string_length_app (s1 s2 : string) :
  String.length (s1 +:+ s2) = (String.length s1 + String.length s2)%nat.
Proof.
  induction s1 as [|c s1 IH]; [reflexivity|].
  change (Datatypes.S (String.length (s1 +:+ s2)) =
          Datatypes.S (String.length s1 + String.length s2)).
  by rewrite IH.
Qed.

Lemma concat_empty_sep_cons (x : string) (xs : list string) :
  String.concat "" (x :: xs) = x +:+ String.concat "" xs.
Proof. destruct xs; simpl; [by rewrite string_app_nil_r|done]. Qed.

(** Cutting a string back to the length of its first part. *)
Lemma substring_0_app (s1 s2 : string) :
  String.substring 0 (String.length s1) (s1 +:+ s2) = s1.
Proof.
  induction s1 as [|c s1 IH].
  - by destruct s2.
  - change (String c (String.substring 0 (String.length s1) (s1 +:+ s2))
            = String c s1).
    by rewrite IH.
Qed.

(** ** Loops *)

Lemma trail_concat (e : string) (es : list string) :
  trail (e :: es) = String.concat ", " (e :: es) +:+ ", ".
Proof.
  revert e. induction es as [|e' es IH]; intros e.
  - simpl. by rewrite string_app_nil_r.
  - change (trail (e :: e' :: es)) with (e +:+ ", " +:+ trail (e' :: es)).
    change (String.concat ", " (e :: e' :: es))
      with (e +:+ ", " +:+ String.concat ", " (e' :: es)).
    by rewrite IH, !string_app_assoc.
Qed.

Lemma for_from_trail (body : N → string → result string)
    (es : list string) :
  ∀ (i : N) (st : string),
    (∀ (j : nat) (e ss : string),
        es !! j = Some e →
        body (i + N.of_nat j) ss = Ok (ss +:+ e +:+ ", ")) →
    for_from i (length es) body st = Ok (st +:+ trail es).
Proof.
  induction es as [|e es IH]; intros i st Hel.
  - simpl. by rewrite string_app_nil_r.
  - cbn [length for_from].
    pose proof (Hel 0%nat e st eq_refl) as H0.
    rewrite N.add_0_r in H0. rewrite H0. cbn [mbind result_bind].
    rewrite IH.
    + cbn [trail foldr]. by rewrite !string_app_assoc.
    + intros j e' ss Hj. specialize (Hel (Datatypes.S j) e' ss Hj).
      by replace (N.succ i + N.of_nat j) with (i + N.of_nat (S j)) by lia.
Qed.

Lemma vector_at_map {A B : Type} (f : A → B) (v : list A) (i : N) :
  vector_at (map f v) i = f <$> vector_at v i.
Proof.
  unfold vector_at.
  change (map f v) with (f <$> v). rewrite list_lookup_fmap.
  by destruct (v !! N.to_nat i).
Qed.

(** ** The bounded preview *)

Lemma size_sub_small : size_sub 1 2 = 2 ^ 64 - 1.
Proof. reflexivity. Qed.

Lemma size_sub_exact (a b : N) : b ≤ a → size_sub a b = a - b.
Proof.
  intros Hle. unfold size_sub.
  by destruct (N.leb_spec b a) as [_|?]; [|lia].
Qed.

(** On operands in the range of [size_t], [size_sub] is subtraction
    modulo [2^64]. *)
Lemma size_sub_modular (a b : N) :
  a < SIZE_MODULUS → b < SIZE_MODULUS →
  Z.of_N (size_sub a b)
  = ((Z.of_N a - Z.of_N b) mod Z.of_N SIZE_MODULUS)%Z.
Proof.
  intros Ha Hb. unfold size_sub.
  destruct (N.leb_spec b a) as [Hle|Hlt].
  - rewrite Z.mod_small; lia.
  - replace (Z.of_N a - Z.of_N b)%Z
      with ((Z.of_N a + Z.of_N SIZE_MODULUS - Z.of_N b)
            + (-1) * Z.of_N SIZE_MODULUS)%Z by lia.
    rewrite Z.mod_add by (unfold SIZE_MODULUS; simpl; lia).
    rewrite Z.mod_small; lia.
Qed.

(** The closing path of a sequence branch: dropping two characters from
    the end of the stream removes the last separator, and on the empty
    sequence, where the subtraction wraps around, it removes nothing. *)
Lemma close_bracket (es : list string) :
  substr ("[" +:+ trail es) 0
    (size_sub (string_size ("[" +:+ trail es)) 2)
  = Ok ("[" +:+ String.concat ", " es).
Proof.
  destruct es as [|e es].
  - reflexivity.
  - rewrite trail_concat.
    set (body := "[" +:+ String.concat ", " (e :: es)).
    rewrite <- string_app_assoc. fold body.
    unfold substr.
    assert (string_size (body +:+ ", ") = string_size body + 2) as ->.
    { unfold string_size. rewrite string_length_app.
      change (String.length ", ") with 2%nat. lia. }
    rewrite size_sub_exact by lia.
    destruct (N.ltb_spec (string_size body + 2) 0) as [?|_]; [lia|].
    replace (N.min (string_size body + 2 - 2) (string_size body + 2 - 0))
      with (string_size body) by lia.
    unfold string_size. rewrite Nat2N.id.
    by rewrite substring_0_app.
Qed.

(** ** Rendering sequences and objects *)

Lemma finish_preview_total (size : N) (es : list string) :
  ∃ s, finish_preview size es = Ok s.
Proof.
  unfold finish_preview. destruct (3 <? size); [by eexists|].
  unfold substr.
  destruct (N.ltb_spec (string_size ("[" +:+ trail es)) 0); [lia|].
  by eexists.
Qed.

Lemma toString_Array_stream (arg : Array) (es : list string) :
  Forall2 (fun v e => toString v = Ok e) (take 3 arg) es →
  toString (VArray arg) = finish_preview (vector_size arg) es.
Proof.
  intros Hes. cbn [toString]. unfold for_range, finish_preview.
  assert (N.to_nat (N.min 3 (vector_size arg)) = length es) as ->.
  { rewrite <- (Forall2_length _ _ _ Hes), length_take.
    unfold vector_size. lia. }
  rewrite for_from_trail.
  - cbn [mbind result_bind]. by rewrite string_app_assoc.
  - intros j e ss Hj. rewrite N.add_0_l.
    destruct (Forall2_lookup_r _ _ _ _ _ Hes Hj) as (v & Hv & Hve).
    apply lookup_take_Some in Hv as [Hv _].
    rewrite vector_at_map. unfold vector_at. rewrite Nat2N.id, Hv.
    simpl. by rewrite Hve.
Qed.

Lemma toString_Float32Array_stream (arg : Float32Array) :
  toString (VFloat32Array arg)
  = finish_preview (vector_size arg) (to_string_float <$> take 3 arg).
Proof.
  cbn [toString]. unfold for_range, finish_preview.
  assert (N.to_nat (N.min 3 (vector_size arg))
          = length (to_string_float <$> take 3 arg)) as ->.
  { rewrite length_fmap, length_take. unfold vector_size. lia. }
  rewrite for_from_trail.
  - cbn [mbind result_bind]. by rewrite string_app_assoc.
  - intros j e ss Hj. rewrite N.add_0_l. rewrite list_lookup_fmap in Hj.
    destruct (take 3 arg !! j) as [x|] eqn:Hx; [|discriminate].
    apply lookup_take_Some in Hx as [Hx _].
    unfold vector_at. rewrite Nat2N.id, Hx. simpl in *. congruence.
Qed.

Lemma for_each_object_lines (o : Object) (lines : list string) :
  Forall2 (fun kv line => ∃ s, toString kv.2 = Ok s ∧
                                line = object_line kv.1 s) o lines →
  ∀ st : string,
    for_each_go
      (fun '(k, v) ss =>
         s ← toString v; Ok (ss +:+ "    " +:+ k +:+ ": " +:+ s +:+ LF))
      o st
    = Ok (st +:+ String.concat "" lines).
Proof.
  induction 1 as [|[k v] line o lines (s & Hs & ->) _ IH]; intros st.
  - simpl. by rewrite string_app_nil_r.
  - cbn [for_each_go]. simpl in Hs. rewrite Hs. cbn [mbind result_bind].
    rewrite IH, concat_empty_sep_cons. unfold object_line. simpl.
    by rewrite !string_app_assoc.
Qed.

Lemma toString_Object_lines (o : Object) (lines : list string) :
  Forall2 (fun kv line => ∃ s, toString kv.2 = Ok s ∧
                                line = object_line kv.1 s) o lines →
  toString (VObject o)
  = Ok ("{" +:+ LF +:+ String.concat "" lines +:+ "}" +:+ LF).
Proof.
  intros Hl. cbn [toString]. unfold for_each.
  rewrite (for_each_object_lines o lines Hl). cbn [mbind result_bind].
  by rewrite !string_app_assoc.
Qed.

(** ** [toString] returns on every value *)

Lemma toString_total (v : Value) : toString v = Ok (rendered v).
Proof.
  assert (∃ s, toString v = Ok s) as [s Hs];
    [|by unfold rendered; rewrite Hs].
  induction v as [| |b|x|s|o IH|a IH|a|f] using Value_nested_ind;
    try (eexists; reflexivity).
  - exists ("{" +:+ LF +:+
            String.concat "" ((fun kv => object_line kv.1 (rendered kv.2))
                                <$> o) +:+ "}" +:+ LF).
    apply toString_Object_lines. apply Forall2_fmap_r, Forall_Forall2_diag.
    eapply Forall_impl; [exact IH|]. intros kv [s Hs]. exists s.
    split; [done|]. unfold rendered. by rewrite Hs.
  - rewrite (toString_Array_stream a (rendered <$> take 3 a));
      [apply finish_preview_total|].
    apply Forall2_fmap_r, Forall_Forall2_diag.
    apply Forall_take with (n := 3%nat) in IH.
    eapply Forall_impl; [exact IH|]. intros v [s Hs].
    unfold rendered, compose. by rewrite Hs.
  - rewrite toString_Float32Array_stream. apply finish_preview_total.
Qed.

(** ** The key order *)

Lemma key_less_compare (a b : string) :
  key_less a b = true ↔ String.compare a b = Lt.
Proof.
  unfold key_less, String.ltb. by destruct (String.compare a b).
Qed.

Lemma string_compare_refl (a : string) : String.compare a a = Eq.
Proof.
  induction a as [|c a IH]; [reflexivity|]. simpl.
  unfold Ascii.compare. by rewrite N.compare_refl.
Qed.

Lemma key_lt_irrefl (a : string) : ¬ key_lt a a.
Proof.
  unfold key_lt. rewrite key_less_compare.
  by rewrite (string_compare_refl a).
Qed.

Lemma key_lt_le (a b : string) : key_lt a b → String.le a b.
Proof.
  unfold key_lt. rewrite key_less_compare. intros H.
  unfold String.le, String.leb. by rewrite H.
Qed.

Lemma key_lt_asym (a b : string) : key_lt a b → key_lt b a → False.
Proof.
  intros Hab Hba.
  assert (a = b) as -> by (apply (anti_symm String.le); by apply key_lt_le).
  by apply key_lt_irrefl in Hab.
Qed.

#[global] Instance key_lt_trans : Transitive key_lt.
Proof.
  intros a b c Hab Hbc.
  assert (String.le a c) as Hac
    by (etrans; apply key_lt_le; eassumption).
  unfold key_lt. apply key_less_compare.
  unfold String.le, String.leb in Hac.
  destruct (String.compare a c) eqn:Hcmp; [|done|done].
  apply String.compare_eq_iff in Hcmp as ->.
  destruct (key_lt_asym _ _ Hab Hbc).
Qed.

#[global] Instance entry_lt_trans : Transitive entry_lt.
Proof. intros x y z. unfold entry_lt. apply key_lt_trans. Qed.

Lemma key_equiv_eq (a b : string) : key_equiv a b = true ↔ a = b.
Proof.
  unfold key_equiv, key_less, String.ltb. split.
  - rewrite (String.compare_antisym b a).
    destruct (String.compare a b) eqn:Hcmp; simpl; try done.
    intros _. by apply String.compare_eq_iff.
  - intros ->. by rewrite string_compare_refl.
Qed.

(** Neither key less than the other: the keys are the same string. *)
Lemma key_less_total (a b : string) :
  key_less a b = false → key_less b a = false → a = b.
Proof.
  intros Hab Hba. apply key_equiv_eq. unfold key_equiv.
  by rewrite Hab, Hba.
Qed.

(** ** [std::map] operations *)

Lemma map_count_0 (m : Object) (k : string) :
  map_count m k = 0 ↔ k ∉ keys m.
Proof.
  unfold keys. induction m as [|[k' v'] m IH]; simpl.
  - split; [intros _; apply not_elem_of_nil|done].
  - rewrite not_elem_of_cons.
    destruct (key_equiv k' k) eqn:Heq.
    + apply key_equiv_eq in Heq as ->. split; [done|]. by intros [? _].
    + rewrite IH. split; [|tauto]. intros Hm. split; [|done].
      intros ->. by rewrite (proj2 (key_equiv_eq k' k') eq_refl) in Heq.
Qed.

Lemma map_count_1 (m : Object) (k : string) :
  k ∈ keys m → map_count m k = 1.
Proof.
  unfold keys. induction m as [|[k' v'] m IH]; simpl.
  - by intros ?%elem_of_nil.
  - intros Hin. destruct (key_equiv k' k) eqn:Heq; [done|].
    apply elem_of_cons in Hin as [->|Hin]; [|by apply IH].
    by rewrite (proj2 (key_equiv_eq k' k') eq_refl) in Heq.
Qed.

Lemma map_at_stored (m : Object) (k : string) (x : Value) :
  map_ok m → (k, x) ∈ m → map_at m k = Ok x.
Proof.
  unfold map_ok. induction 1 as [|[k' v'] m Hm IH Hall]; simpl.
  - by intros ?%elem_of_nil.
  - intros Hin. destruct (key_equiv k' k) eqn:Heq.
    + apply key_equiv_eq in Heq as ->.
      apply elem_of_cons in Hin as [[= ->]|Hin]; [done|].
      rewrite Forall_forall in Hall. apply Hall in Hin.
      by apply key_lt_irrefl in Hin.
    + apply elem_of_cons in Hin as [[= -> ->]|Hin]; [|by apply IH].
      by rewrite (proj2 (key_equiv_eq k' k') eq_refl) in Heq.
Qed.

Lemma map_insert_elem_of (k : string) (v : Value) (m : Object)
    (e : string * Value) :
  e ∈ map_insert k v m → e = (k, v) ∨ e ∈ m.
Proof.
  induction m as [|[k' v'] m IH]; simpl.
  - intros ->%list_elem_of_singleton. by left.
  - destruct (key_less k k'); [|destruct (key_less k' k)].
    + rewrite elem_of_cons. tauto.
    + rewrite !elem_of_cons. intros [->|Hin]; [tauto|].
      destruct (IH Hin); tauto.
    + tauto.
Qed.

Lemma map_insert_ok (k : string) (v : Value) (m : Object) :
  map_ok m → map_ok (map_insert k v m).
Proof.
  unfold map_ok. induction 1 as [|[k' v'] m Hm IH Hall]; simpl.
  - repeat constructor.
  - destruct (key_less k k') eqn:Hlt; [|destruct (key_less k' k) eqn:Hgt].
    + constructor; [by constructor|]. constructor; [exact Hlt|].
      eapply Forall_impl; [exact Hall|]. intros e He.
      by trans (k', v').
    + constructor; [exact IH|]. rewrite Forall_forall. intros e He.
      apply map_insert_elem_of in He as [->|He]; [exact Hgt|].
      rewrite Forall_forall in Hall. by apply Hall.
    + by constructor.
Qed.

Lemma map_insert_keys (k : string) (v : Value) (m : Object) (k0 : string) :
  k0 ∈ keys (map_insert k v m) ↔ k0 = k ∨ k0 ∈ keys m.
Proof.
  unfold keys. induction m as [|[k' v'] m IH]; simpl.
  - rewrite list_elem_of_singleton, elem_of_nil. tauto.
  - destruct (key_less k k') eqn:Hlt; [|destruct (key_less k' k) eqn:Hgt];
      simpl; rewrite ?elem_of_cons.
    + tauto.
    + rewrite IH. tauto.
    + rewrite (key_less_total _ _ Hlt Hgt). tauto.
Qed.

(** Inserting a fresh key adds exactly that entry. *)
Lemma map_insert_fresh (k : string) (v : Value) (m : Object) :
  k ∉ keys m → map_insert k v m ≡ₚ (k, v) :: m.
Proof.
  unfold keys. induction m as [|[k' v'] m IH]; simpl; [done|].
  rewrite not_elem_of_cons. intros [Hne Hnin].
  destruct (key_less k k') eqn:Hlt; [done|].
  destruct (key_less k' k) eqn:Hgt.
  - rewrite (IH Hnin). apply Permutation_swap.
  - destruct Hne. by apply key_less_total.
Qed.

Lemma fold_insert_ok (init : list (string * Value)) (m : Object) :
  map_ok m → map_ok (fold_left insert_entry init m).
Proof.
  revert m. induction init as [|[k v] init IH]; intros m Hm; [done|].
  simpl. by apply IH, map_insert_ok.
Qed.

Lemma fold_insert_keys (init : list (string * Value)) (m : Object)
    (k0 : string) :
  k0 ∈ keys (fold_left insert_entry init m)
  ↔ k0 ∈ keys init ∨ k0 ∈ keys m.
Proof.
  revert m. induction init as [|[k v] init IH]; intros m; simpl.
  - unfold keys at 2. simpl. rewrite elem_of_nil. tauto.
  - rewrite IH, map_insert_keys. unfold keys at 3. simpl.
    rewrite elem_of_cons. tauto.
Qed.

Lemma fold_insert_fresh (init : list (string * Value)) (m : Object) :
  NoDup (keys init) →
  (∀ k0, k0 ∈ keys init → k0 ∉ keys m) →
  fold_left insert_entry init m ≡ₚ init ++ m.
Proof.
  revert m. induction init as [|[k v] init IH]; intros m Hnd Hdisj;
    [done|].
  unfold keys in Hnd. simpl in Hnd. apply NoDup_cons in Hnd as [Hk Hnd].
  simpl. rewrite IH.
  - rewrite map_insert_fresh; [by rewrite Permutation_middle|].
    apply Hdisj. unfold keys. simpl. by left.
  - exact Hnd.
  - intros k0 Hk0. rewrite map_insert_keys. intros [->|Hin]; [done|].
    revert Hin. apply Hdisj. unfold keys. simpl. by right.
Qed.

Lemma Object_of_entries_ok (init : list (string * Value)) :
  map_ok (Object_of_entries init).
Proof. apply fold_insert_ok. constructor. Qed.

Lemma Object_of_entries_keys (init : list (string * Value)) (k : string) :
  k ∈ keys (Object_of_entries init) ↔ k ∈ keys init.
Proof.
  unfold Object_of_entries.
  rewrite fold_insert_keys. unfold keys at 3. simpl.
  rewrite elem_of_nil. tauto.
Qed.

Lemma Object_of_entries_perm (init : list (string * Value)) :
  NoDup (keys init) → Object_of_entries init ≡ₚ init.
Proof.
  intros Hnd. unfold Object_of_entries.
  rewrite fold_insert_fresh, app_nil_r; [done..|].
  intros k0 _. apply not_elem_of_nil.
Qed.

(** The order of the initializer list does not show in the map. *)
Lemma Object_of_entries_order (init init' : list (string * Value)) :
  NoDup (keys init) → init' ≡ₚ init →
  Object_of_entries init' = Object_of_entries init.
Proof.
  intros Hnd Hperm.
  assert (NoDup (keys init')) as Hnd'.
  { unfold keys in *. by rewrite Hperm. }
  apply (StronglySorted_unique_strong entry_lt).
  - intros e1 e2 _ _ H12 H21. destruct (key_lt_asym _ _ H12 H21).
  - apply Object_of_entries_ok.
  - apply Object_of_entries_ok.
  - by rewrite !Object_of_entries_perm.
Qed.

(** Every well-formed map is the map its own entries build, so statements
    over [Object_of_entries] reach every [std::map]. *)
Lemma Object_of_entries_id (m : Object) :
  map_ok m → Object_of_entries m = m.
Proof.
  intros Hm.
  assert (NoDup (keys m)) as Hnd.
  { unfold keys. induction Hm as [|[k v] m Hm IH Hall]; simpl;
      [constructor|].
    apply NoDup_cons. split; [|done].
    rewrite list_elem_of_fmap. intros ([k' v'] & -> & Hin).
    rewrite Forall_forall in Hall. apply Hall in Hin.
    by apply key_lt_irrefl in Hin. }
  apply (StronglySorted_unique_strong entry_lt).
  - intros e1 e2 _ _ H12 H21. destruct (key_lt_asym _ _ H12 H21).
  - apply Object_of_entries_ok.
  - exact Hm.
  - by apply Object_of_entries_perm.
Qed.

(** ** [toStringVector] and the string-vector constructor *)

Lemma for_each_push_back (a : Array) (strs : list string) :
  Forall2 (fun e s => toString e = Ok s) a strs →
  ∀ acc : list string,
    for_each_go
      (fun e array_of_strings =>
         s ← toString e; Ok (array_of_strings ++ [s])) a acc
    = Ok (acc ++ strs).
Proof.
  induction 1 as [|e s a strs Hs _ IH]; intros acc; simpl.
  - by rewrite app_nil_r.
  - rewrite Hs. cbn [mbind result_bind]. rewrite IH.
    by rewrite <- app_assoc.
Qed.

Lemma push_back_strings (v : list string) (acc : Array) :
  fold_left (fun array str => array ++ [VString str]) v acc
  = acc ++ (VString <$> v).
Proof.
  revert acc. induction v as [|str v IH]; intros acc; simpl.
  - by rewrite app_nil_r.
  - rewrite IH. by rewrite <- app_assoc.
Qed.

Lemma toStringVector_Array (a : Array) (strs : list string) :
  Forall2 (fun e s => toString e = Ok s) a strs →
  toStringVector (VArray a) = Ok strs.
Proof.
  intros Hs. unfold toStringVector, for_each. simpl.
  by rewrite (for_each_push_back a strs Hs).
Qed.

Lemma Forall2_rendered (a : Array) :
  Forall2 (fun e s => toString e = Ok s) a (rendered <$> a).
Proof.
  apply Forall2_fmap_r, Forall_Forall2_diag, Forall_forall.
  intros v _. apply toString_total.
Qed.

(** * Properties of the specification *)

(** ** Bounded preview of sequences *)

(** C1, as the code has it.  For an [Array] or a [Float32Array] holding
    more than three elements, [toString] renders the first three elements
    only, each followed by [", "], and then appends the marker ["...]"]
    directly after the third separator: the text is [[e0, e1, e2, ...]]
    and the marker itself carries the closing bracket. *)
Theorem toString_preview_overflow :
  (∀ (v0 v1 v2 v3 : Value) (rest : Array),
     ∃ e0 e1 e2 : string,
       toString v0 = Ok e0 ∧ toString v1 = Ok e1 ∧ toString v2 = Ok e2 ∧
       toString (VArray (v0 :: v1 :: v2 :: v3 :: rest))
       = Ok ("[" +:+ e0 +:+ ", " +:+ e1 +:+ ", " +:+ e2 +:+ ", " +:+
             "...]")) ∧
  (∀ (x0 x1 x2 x3 : ieee754) (rest : Float32Array),
     toString (VFloat32Array (x0 :: x1 :: x2 :: x3 :: rest))
     = Ok ("[" +:+ to_string_float x0 +:+ ", " +:+
                   to_string_float x1 +:+ ", " +:+
                   to_string_float x2 +:+ ", " +:+ "...]")).
Proof.
  split.
  - intros v0 v1 v2 v3 rest.
    exists (rendered v0), (rendered v1), (rendered v2).
    repeat (split; [apply toString_total|]).
    pose (es := rendered <$> [v0; v1; v2]).
    rewrite (toString_Array_stream (v0 :: v1 :: v2 :: v3 :: rest) es)
      by (repeat constructor; apply toString_total).
    unfold finish_preview.
    assert ((3 <? vector_size (v0 :: v1 :: v2 :: v3 :: rest)) = true) as ->
      by (apply N.ltb_lt; unfold vector_size; simpl length; lia).
    subst es. cbn [fmap list_fmap trail foldr].
    by rewrite !string_app_assoc.
  - intros x0 x1 x2 x3 rest. rewrite toString_Float32Array_stream.
    unfold finish_preview.
    assert ((3 <? vector_size (x0 :: x1 :: x2 :: x3 :: rest)) = true) as ->
      by (apply N.ltb_lt; unfold vector_size; simpl length; lia).
    cbn [take fmap list_fmap trail foldr].
    by rewrite !string_app_assoc.
Qed.

(** C1, as the specification words it, fails: on the four-element array
    [["a", "b", "c", "d"]] the preview is ["[a, b, c, ...]"], closed by a
    bracket, and not the open text ["[a, b, c, ..."]. *)
Lemma overflow_preview_is_bracket_closed :
  toString (VArray [VString "a"; VString "b"; VString "c"; VString "d"])
  = Ok "[a, b, c, ...]" ∧
  toString (VArray [VString "a"; VString "b"; VString "c"; VString "d"])
  ≠ Ok ("[" +:+ "a" +:+ ", " +:+ "b" +:+ ", " +:+ "c" +:+ ", " +:+ "...").
Proof. split; [reflexivity|vm_compute; discriminate]. Qed.

(** C2, as the code has it.  For an [Array] of three or fewer elements
    [toString] renders exactly the elements, joined with [", "], between
    square brackets, with the closing bracket and no trailing separator.
    Numbers are rendered by [std::to_string] in fixed six-decimal form,
    so the array of the Numbers 1, 2, 3 renders as
    ["[1.000000, 2.000000, 3.000000]"]. *)
Theorem toString_Array_small :
  (∀ arg : Array,
     (length arg ≤ 3)%nat →
     ∃ es : list string,
       Forall2 (fun v e => toString v = Ok e) arg es ∧
       toString (VArray arg)
       = Ok ("[" +:+ String.concat ", " es +:+ "]")) ∧
  toString (VArray [VNumber double_1; VNumber double_2; VNumber double_3])
  = Ok "[1.000000, 2.000000, 3.000000]".
Proof.
  split; [|vm_compute; reflexivity].
  intros arg Hlen. exists (rendered <$> arg).
  split; [apply Forall2_rendered|].
  rewrite (toString_Array_stream arg (rendered <$> arg))
    by (rewrite take_ge by lia; apply Forall2_rendered).
  unfold finish_preview.
  assert ((3 <? vector_size arg) = false) as ->
    by (apply N.ltb_ge; unfold vector_size; lia).
  by rewrite close_bracket.
Qed.

Lemma toString_Array_small_witness :
  ∃ es : list string,
    Forall2 (fun v e => toString v = Ok e)
      [VString "1"; VString "2"; VString "3"] es ∧
    toString (VArray [VString "1"; VString "2"; VString "3"])
    = Ok ("[" +:+ String.concat ", " es +:+ "]").
Proof.
  apply (proj1 toString_Array_small [VString "1"; VString "2"; VString "3"]).
  simpl. lia.
Defined.

(** C2, as the specification words it, fails on its own example: the
    array of the Numbers 1, 2, 3 does not render as ["[1, 2, 3]"]. *)
Lemma Array_123_renders_six_decimals :
  toString (VArray [VNumber double_1; VNumber double_2; VNumber double_3])
  = Ok "[1.000000, 2.000000, 3.000000]" ∧
  toString (VArray [VNumber double_1; VNumber double_2; VNumber double_3])
  ≠ Ok "[1, 2, 3]".
Proof. split; [vm_compute; reflexivity|vm_compute; discriminate]. Qed.

(** ** Type checks *)

(** C3.  On every value exactly one of the nine type checks answers
    [true]. *)
Theorem type_checks_exactly_one (v : Value) :
  length (type_checks v) = 9%nat ∧
  List.count_occ Bool.bool_dec (type_checks v) true = 1%nat.
Proof. by destruct v. Qed.

(** ** Default-guarded object access *)

(** C4.  On an object [o], when [k] is present [getWithDefault k d]
    converts the value stored under [k] with the cast to the expected
    type, which throws when the stored value holds another variant; when
    [k] is absent it returns [d]. *)
Theorem getWithDefault_spec {T : Type} `{Castable T}
    (o : Object) (k : string) (d : T) :
  map_ok o →
  (∀ x : Value, (k, x) ∈ o → getWithDefault (VObject o) k d = cast x) ∧
  (∀ x : Value, (k, x) ∈ o → cast_reads x = false →
     getWithDefault (VObject o) k d = Throw bad_variant_access) ∧
  (k ∉ keys o → getWithDefault (VObject o) k d = Ok d).
Proof.
  intros Hok.
  assert (∀ x : Value,
            (k, x) ∈ o → getWithDefault (VObject o) k d = cast x) as Hin.
  { intros x Hin. unfold getWithDefault. cbn [getObject mbind result_bind].
    assert (k ∈ keys o) as Hk.
    { unfold keys. apply list_elem_of_fmap. by exists (k, x). }
    rewrite (map_count_1 o k Hk). simpl.
    by rewrite (map_at_stored o k x Hok Hin). }
  split; [exact Hin|]. split.
  - intros x Hx Hmis. rewrite (Hin x Hx). by apply cast_mismatch.
  - intros Hk. unfold getWithDefault. cbn [getObject mbind result_bind].
    apply map_count_0 in Hk. by rewrite Hk.
Qed.

Lemma getWithDefault_spec_witness :
  getWithDefault (VObject (Object_of_entries [("x", VNumber double_42)]))
    "x" double_5 = Ok double_42 ∧
  getWithDefault (VObject (Object_of_entries [("x", VString "s")]))
    "x" double_5 = Throw bad_variant_access ∧
  getWithDefault (VObject (Object_of_entries [("y", VNumber double_42)]))
    "x" double_5 = Ok double_5.
Proof.
  split; [|split].
  - refine (proj1 (getWithDefault_spec (T := Number)
                     (Object_of_entries [("x", VNumber double_42)])
                     "x" double_5 _)
              (VNumber double_42) _).
    + vm_compute. repeat constructor.
    + vm_compute. apply list_elem_of_here.
  - refine (proj1 (proj2 (getWithDefault_spec (T := Number)
                            (Object_of_entries [("x", VString "s")])
                            "x" double_5 _))
              (VString "s") _ _).
    + vm_compute. repeat constructor.
    + vm_compute. apply list_elem_of_here.
    + reflexivity.
  - refine (proj2 (proj2 (getWithDefault_spec (T := Number)
                            (Object_of_entries [("y", VNumber double_42)])
                            "x" double_5 _)) _).
    + vm_compute. repeat constructor.
    + vm_compute. intros Hin. apply list_elem_of_singleton in Hin.
      discriminate Hin.
Defined.

(** ** String-vector extraction *)

(** C5.  [toStringVector] returns, on an array, the rendering of each
    element by [toString], in index order; on any other value it returns
    the empty sequence.  It never throws. *)
Theorem toStringVector_spec (v : Value) :
  (∀ a : Array, v = VArray a →
     ∃ strs : list string,
       toStringVector v = Ok strs ∧
       Forall2 (fun e s => toString e = Ok s) a strs) ∧
  (isArray v = false → toStringVector v = Ok []).
Proof.
  split.
  - intros a ->. exists (rendered <$> a).
    split; [|apply Forall2_rendered].
    apply toStringVector_Array, Forall2_rendered.
  - intros Hv. unfold toStringVector. by rewrite Hv.
Qed.

Lemma toStringVector_spec_witness :
  (∃ strs : list string,
     toStringVector (VArray [VString "a"; VNull; VBoolean true]) = Ok strs ∧
     Forall2 (fun e s => toString e = Ok s)
       [VString "a"; VNull; VBoolean true] strs) ∧
  toStringVector (VNumber double_1) = Ok [].
Proof.
  split.
  - apply (proj1 (toStringVector_spec
                    (VArray [VString "a"; VNull; VBoolean true]))).
    reflexivity.
  - apply (proj2 (toStringVector_spec (VNumber double_1))).
    reflexivity.
Defined.

(** ** Objects *)

(** C6.  The object built from any list of entries renders as a block:
    the line ["{"], then one line per key made of four spaces, the key,
    [": "] and the rendered value, then the line ["}"].  The lines follow
    the keys in strictly increasing lexicographic order, the keys are
    those of the entries, and the order in which the entries were given
    does not show. *)
Theorem toString_Object_sorted (init : list (string * Value)) :
  let o := Object_of_entries init in
  ∃ lines : list string,
    toString (VObject o)
    = Ok ("{" +:+ LF +:+ String.concat "" lines +:+ "}" +:+ LF) ∧
    Forall2 (fun kv line =>
               ∃ s, toString kv.2 = Ok s ∧
                    line = "    " +:+ kv.1 +:+ ": " +:+ s +:+ LF) o lines ∧
    StronglySorted key_lt (keys o) ∧
    (∀ k : string, k ∈ keys o ↔ k ∈ keys init) ∧
    (∀ init' : list (string * Value),
       NoDup (keys init) → init' ≡ₚ init → Object_of_entries init' = o).
Proof.
  intros o.
  assert (Forall2 (fun kv line =>
                     ∃ s, toString kv.2 = Ok s ∧
                          line = object_line kv.1 s) o
            ((fun kv => object_line kv.1 (rendered kv.2)) <$> o)) as Hlines.
  { apply Forall2_fmap_r, Forall_Forall2_diag, Forall_forall.
    intros kv _. exists (rendered kv.2). split; [apply toString_total|done]. }
  eexists. split; [exact (toString_Object_lines o _ Hlines)|].
  split; [exact Hlines|]. split; [|split].
  - unfold keys. eapply StronglySorted_fmap; [|apply Object_of_entries_ok].
    by intros x y.
  - apply Object_of_entries_keys.
  - intros init' Hnd Hperm. by apply Object_of_entries_order.
Qed.

Lemma toString_Object_sorted_witness :
  Object_of_entries [("a", VNumber double_1); ("b", VNumber double_2)]
  = Object_of_entries [("b", VNumber double_2); ("a", VNumber double_1)].
Proof.
  destruct (toString_Object_sorted
              [("b", VNumber double_2); ("a", VNumber double_1)])
    as (lines & _ & _ & _ & _ & Horder).
  apply Horder.
  - vm_compute. repeat constructor; rewrite ?elem_of_cons, ?elem_of_nil;
      intuition discriminate.
  - apply Permutation_swap.
Defined.

(** ** Wrong-variant access *)

(** C7.  Each getter and each cast throws [std::bad_variant_access] on
    every value that holds another variant than the one it reads. *)
Theorem wrong_variant_access_throws (v : Value) :
  (isArray v = false → getArray v = Throw bad_variant_access) ∧
  (isFloat32Array v = false →
     getFloat32Array v = Throw bad_variant_access) ∧
  (isObject v = false → getObject v = Throw bad_variant_access) ∧
  (isFunction v = false → getFunction v = Throw bad_variant_access) ∧
  (isNumber v = false → getNumber v = Throw bad_variant_access) ∧
  (isBool v = false → to_Boolean v = Throw bad_variant_access) ∧
  (isNumber v = false → to_Number v = Throw bad_variant_access) ∧
  (isString v = false → to_String v = Throw bad_variant_access) ∧
  (isArray v = false → to_Array v = Throw bad_variant_access).
Proof. destruct v; repeat split; intros Hv; done. Qed.

Lemma wrong_variant_access_throws_witness :
  (getArray (VString "hello") = Throw bad_variant_access ∧
   getFloat32Array (VString "hello") = Throw bad_variant_access ∧
   getObject (VString "hello") = Throw bad_variant_access ∧
   getFunction (VString "hello") = Throw bad_variant_access ∧
   getNumber (VString "hello") = Throw bad_variant_access ∧
   to_Boolean (VString "hello") = Throw bad_variant_access ∧
   to_Number (VString "hello") = Throw bad_variant_access ∧
   to_Array (VString "hello") = Throw bad_variant_access) ∧
  to_String (VNumber double_1) = Throw bad_variant_access.
Proof.
  destruct (wrong_variant_access_throws (VString "hello"))
    as (H1 & H2 & H3 & H4 & H5 & H6 & H7 & _ & H9).
  destruct (wrong_variant_access_throws (VNumber double_1))
    as (_ & _ & _ & _ & _ & _ & _ & H8 & _).
  split; [|exact (H8 eq_refl)].
  exact (conj (H1 eq_refl) (conj (H2 eq_refl) (conj (H3 eq_refl)
          (conj (H4 eq_refl) (conj (H5 eq_refl) (conj (H6 eq_refl)
            (conj (H7 eq_refl) (H9 eq_refl)))))))).
Defined.

(** ** The renderer returns *)

(** C8.  [toString] returns a string on every value: no access it makes
    is out of range and nothing it calls throws.  Numbers that are NaN or
    infinite are values like the others. *)
Theorem toString_never_fails (v : Value) : ∃ s : string, toString v = Ok s.
Proof. exists (rendered v). apply toString_total. Qed.

(** ** Round trip through the string-vector constructor *)

(** C10.  An array built from a list of strings gives the same strings
    back, in the same order, through [toStringVector]. *)
Theorem toStringVector_of_string_vector (v : list string) :
  toStringVector (Value_of_string_vector v) = Ok v.
Proof.
  unfold Value_of_string_vector. rewrite push_back_strings, app_nil_l.
  apply toStringVector_Array, Forall2_fmap_l, Forall_Forall2_diag,
    Forall_forall.
  by intros s _.
Qed.

(** * Further properties of the header *)

(** ** Reading back what was stored *)


(** ** [getWithDefault] beyond the present/absent cases *)

Lemma map_count_at (o : Object) (k : string) :
  (map_count o k = 1 ∧ ∃ x, map_at o k = Ok x) ∨
  (map_count o k = 0 ∧ map_at o k = Throw out_of_range).
Proof.
  induction o as [|[k' v'] o IH]; simpl.
  - by right.
  - destruct (key_equiv k' k); [|exact IH]. left. eauto.
Qed.

Lemma map_at_elem_of (o : Object) (k : string) (x : Value) :
  map_at o k = Ok x → (k, x) ∈ o.
Proof.
  induction o as [|[k' v'] o IH]; simpl; [done|].
  destruct (key_equiv k' k) eqn:Heq.
  - apply key_equiv_eq in Heq as ->. intros [= ->]. apply list_elem_of_here.
  - intros Hat. apply list_elem_of_further, IH, Hat.
Qed.

(** X2.  On a value that is not an object [getWithDefault] throws
    [std::bad_variant_access], whatever the key and the default: the
    default does not cover a receiver of the wrong type. *)
Theorem getWithDefault_on_non_object {T : Type} `{Castable T}
    (self : Value) (k : string) (d : T) :
  isObject self = false →
  getWithDefault self k d = Throw bad_variant_access.
Proof. intros Hself. by destruct self. Qed.

Lemma getWithDefault_on_non_object_witness :
  getWithDefault (VArray [VString "x"]) "x" double_5
  = Throw bad_variant_access.
Proof.
  apply (getWithDefault_on_non_object (T := Number)
           (VArray [VString "x"]) "x" double_5).
  reflexivity.
Defined.

(** X3.  The call [o.at(k)] is guarded by [o.count(k) > 0]:
    [getWithDefault] never lets [std::out_of_range] escape.  Either
    [at] finds a value and the result is its cast, or [at] would throw
    and the result is the default. *)
Theorem getWithDefault_guards_at {T : Type} `{Castable T}
    (o : Object) (k : string) (d : T) :
  (∃ x, map_at o k = Ok x ∧ getWithDefault (VObject o) k d = cast x) ∨
  (map_at o k = Throw out_of_range ∧
   getWithDefault (VObject o) k d = Ok d).
Proof.
  unfold getWithDefault. cbn [getObject mbind result_bind].
  destruct (map_count_at o k) as [[-> [x Hx]]|[-> Hat]].
  - left. exists x. split; [exact Hx|]. by rewrite Hx.
  - right. by split.
Qed.

(** X4.  Asked for a [Value], [getWithDefault] on an object never
    throws: it returns the stored value of a key that is present and the
    default when the key is absent. *)
Theorem getWithDefault_Value_total (o : Object) (k : string) (d : Value) :
  ∃ x : Value,
    getWithDefault (VObject o) k d = Ok x ∧
    ((k, x) ∈ o ∨ ((k ∉ keys o) ∧ x = d)).
Proof.
  unfold getWithDefault. cbn [getObject mbind result_bind].
  destruct (map_count_at o k) as [[Hc [x Hx]]|[Hc Hat]]; rewrite Hc.
  - exists x. simpl. rewrite Hx. split; [done|].
    left. by apply map_at_elem_of.
  - exists d. split; [done|]. right. split; [|done].
    by apply map_count_0.
Qed.

(** ** More on the rendering of sequences *)

Lemma toString_Array_rendered (a : Array) :
  toString (VArray a)
  = finish_preview (vector_size a) (rendered <$> take 3 a).
Proof.
  apply toString_Array_stream.
  apply Forall2_fmap_r, Forall_Forall2_diag, Forall_forall.
  intros v _. apply toString_total.
Qed.

Lemma finish_preview_small (size : N) (es : list string) :
  size ≤ 3 →
  finish_preview size es = Ok ("[" +:+ String.concat ", " es +:+ "]").
Proof.
  intros Hsize. unfold finish_preview.
  assert ((3 <? size) = false) as -> by (by apply N.ltb_ge).
  by rewrite close_bracket.
Qed.

Lemma finish_preview_bracketed (size : N) (es : list string) :
  ∃ body : string, finish_preview size es = Ok ("[" +:+ body +:+ "]").
Proof.
  destruct (N.le_gt_cases size 3) as [Hle|Hgt].
  - exists (String.concat ", " es). by apply finish_preview_small.
  - exists (trail es +:+ "..."). unfold finish_preview.
    assert ((3 <? size) = true) as -> by (by apply N.ltb_lt).
    by rewrite (string_app_assoc (trail es) "..." "]").
Qed.

(** X5.  A [Float32Array] of three or fewer samples renders as all its
    samples, each in [std::to_string]'s form, joined with [", "] between
    square brackets; the empty buffer renders as ["[]"]. *)
Theorem toString_Float32Array_small (arg : Float32Array) :
  (length arg ≤ 3)%nat →
  toString (VFloat32Array arg)
  = Ok ("[" +:+ String.concat ", " (to_string_float <$> arg) +:+ "]").
Proof.
  intros Hlen. rewrite toString_Float32Array_stream.
  rewrite take_ge by lia.
  apply finish_preview_small. unfold vector_size. lia.
Qed.

Lemma toString_Float32Array_small_witness :
  toString (VFloat32Array [float_1; float_half])
  = Ok ("[" +:+ String.concat ", "
                  (to_string_float <$> [float_1; float_half]) +:+ "]").
Proof.
  apply (toString_Float32Array_small [float_1; float_half]).
  simpl. lia.
Defined.

(** X6.  Whatever its length, an [Array] or a [Float32Array] renders as
    a text that opens with ["["] and closes with ["]"]. *)
Theorem toString_sequence_bracketed (v : Value) :
  isArray v = true ∨ isFloat32Array v = true →
  ∃ body : string, toString v = Ok ("[" +:+ body +:+ "]").
Proof.
  intros [Hv|Hv]; destruct v; try discriminate Hv.
  - rewrite toString_Array_rendered. apply finish_preview_bracketed.
  - rewrite toString_Float32Array_stream. apply finish_preview_bracketed.
Qed.

Lemma toString_sequence_bracketed_witness :
  ∃ body : string,
    toString (VArray [VNull; VNull; VNull; VNull; VNull])
    = Ok ("[" +:+ body +:+ "]").
Proof.
  apply (toString_sequence_bracketed
           (VArray [VNull; VNull; VNull; VNull; VNull])).
  left. reflexivity.
Defined.

(** X7.  Once a sequence holds more than three elements its rendering
    shows neither how many more there are nor what they are: two arrays
    (or two float buffers) that agree on their first three elements and
    both go on render the same. *)
Theorem preview_ignores_tail :
  (∀ (v0 v1 v2 : Value) (rest rest' : Array),
     rest ≠ [] → rest' ≠ [] →
     toString (VArray (v0 :: v1 :: v2 :: rest))
     = toString (VArray (v0 :: v1 :: v2 :: rest'))) ∧
  (∀ (x0 x1 x2 : ieee754) (rest rest' : Float32Array),
     rest ≠ [] → rest' ≠ [] →
     toString (VFloat32Array (x0 :: x1 :: x2 :: rest))
     = toString (VFloat32Array (x0 :: x1 :: x2 :: rest'))).
Proof.
  assert (∀ (A : Type) (y0 y1 y2 : A) (l : list A),
            l ≠ [] → (3 <? vector_size (y0 :: y1 :: y2 :: l)) = true)
    as Hlong.
  { intros A y0 y1 y2 [|y3 l] Hl; [done|].
    apply N.ltb_lt. unfold vector_size. simpl length. lia. }
  split.
  - intros v0 v1 v2 rest rest' Hr Hr'.
    rewrite !toString_Array_rendered. unfold finish_preview.
    by rewrite !Hlong.
  - intros x0 x1 x2 rest rest' Hr Hr'.
    rewrite !toString_Float32Array_stream. unfold finish_preview.
    by rewrite !Hlong.
Qed.

Lemma preview_ignores_tail_witness :
  toString (VArray [VNull; VNull; VNull; VString "a"])
  = toString (VArray [VNull; VNull; VNull; VNumber double_1; VNull]) ∧
  toString (VFloat32Array [float_1; float_1; float_1; float_half])
  = toString (VFloat32Array [float_1; float_1; float_1; float_1; float_1]).
Proof.
  split.
  - apply (proj1 preview_ignores_tail VNull VNull VNull
             [VString "a"] [VNumber double_1; VNull]); discriminate.
  - apply (proj2 preview_ignores_tail float_1 float_1 float_1
             [float_half] [float_1; float_1]); discriminate.
Defined.

(** X8.  A [Float32Array] renders exactly like the [Array] of the same
    numbers: [std::to_string] promotes a [float] to [double], so the two
    sequence branches print the same text. *)
Theorem Float32Array_renders_as_Numbers (xs : Float32Array) :
  toString (VFloat32Array xs) = toString (VArray (VNumber <$> xs)).
Proof.
  rewrite toString_Float32Array_stream.
  rewrite (toString_Array_stream (VNumber <$> xs)
             (to_string_float <$> take 3 xs)).
  - unfold vector_size. by rewrite length_fmap.
  - rewrite <- fmap_take. apply Forall2_fmap, Forall_Forall2_diag,
      Forall_forall. by intros x _.
Qed.

(** X9.  On an array of three or fewer elements [toString] is
    [toStringVector] joined with [", "] and put between brackets. *)
Theorem toString_joins_toStringVector (a : Array) (strs : list string) :
  (length a ≤ 3)%nat →
  toStringVector (VArray a) = Ok strs →
  toString (VArray a) = Ok ("[" +:+ String.concat ", " strs +:+ "]").
Proof.
  intros Hlen Hstrs.
  rewrite (toStringVector_Array a (rendered <$> a) (Forall2_rendered a))
    in Hstrs.
  injection Hstrs as <-.
  rewrite toString_Array_rendered, take_ge by lia.
  apply finish_preview_small. unfold vector_size. lia.
Qed.

Lemma toString_joins_toStringVector_witness :
  toString (VArray [VString "a"; VNull])
  = Ok ("[" +:+ String.concat ", " ["a"; "null"] +:+ "]").
Proof.
  apply (toString_joins_toStringVector [VString "a"; VNull] ["a"; "null"]).
  - simpl. lia.
  - reflexivity.
Defined.

(** ** The string-vector constructor *)

(** X10.  The constructor from a vector of strings builds the array of
    the [String] values of the strings, one per string and in the same
    order; from the empty vector it builds the empty array. *)
Theorem Value_of_string_vector_elements (v : list string) :
  Value_of_string_vector v = VArray (VString <$> v).
Proof.
  unfold Value_of_string_vector. by rewrite push_back_strings.
Qed.

(** ** Streaming *)


(** ** Nothing but the empty string renders as empty text *)

Lemma string_app_eq_nil (s1 s2 : string) :
  s1 +:+ s2 = "" → s1 = "" ∧ s2 = "".
Proof. destruct s1; [done|discriminate]. Qed.

Lemma printf_f_nonempty (x : ieee754) : printf_f x ≠ "".
Proof.
  destruct x as [neg m e|neg|neg]; unfold printf_f.
  - intros Hx.
    apply string_app_eq_nil in Hx as [_ Hx].
    apply string_app_eq_nil in Hx as [_ Hx].
    discriminate Hx.
  - by destruct neg.
  - by destruct neg.
Qed.

(** X12.  [toString] returns the empty text on the empty [String] only:
    every other value leaves something to read. *)
Theorem toString_empty_text (v : Value) :
  toString v = Ok "" → v = VString "".
Proof.
  destruct v as [| |b|x|s|o|a|a|f]; try discriminate.
  - by destruct b.
  - intros [= Hx]. by apply printf_f_nonempty in Hx.
  - by intros [= ->].
  - rewrite (toString_Object_lines o
               ((fun kv => object_line kv.1 (rendered kv.2)) <$> o)).
    + discriminate.
    + apply Forall2_fmap_r, Forall_Forall2_diag, Forall_forall.
      intros kv _. exists (rendered kv.2).
      split; [apply toString_total|done].
  - destruct (finish_preview_bracketed (vector_size a)
                (rendered <$> take 3 a)) as [body Hb].
    rewrite toString_Array_rendered, Hb. discriminate.
  - destruct (finish_preview_bracketed (vector_size a)
                (to_string_float <$> take 3 a)) as [body Hb].
    rewrite toString_Float32Array_stream, Hb. discriminate.
Qed.

Lemma toString_empty_text_witness : VString "" = VString "".
Proof. apply (toString_empty_text (VString "")). reflexivity. Defined.

(** ** Reading an object built from an initializer list *)

Lemma map_at_absent (m : Object) (k : string) :
  k ∉ keys m → map_at m k = Throw out_of_range.
Proof.
  intros Hk. apply map_count_0 in Hk.
  destruct (map_count_at m k) as [[Hc _]|[_ Hat]]; [|exact Hat].
  rewrite Hk in Hc. discriminate Hc.
Qed.

Lemma map_at_insert_other (k : string) (v : Value) (m : Object)
    (k0 : string) :
  k0 ≠ k → map_at (map_insert k v m) k0 = map_at m k0.
Proof.
  intros Hne.
  assert (key_equiv k k0 = false) as Hkk0.
  { destruct (key_equiv k k0) eqn:He; [|done].
    apply key_equiv_eq in He. congruence. }
  induction m as [|[k' v'] m IH]; simpl.
  - by rewrite Hkk0.
  - destruct (key_less k k'); [|destruct (key_less k' k)]; simpl.
    + by rewrite Hkk0.
    + by rewrite IH.
    + done.
Qed.

Lemma map_at_insert_same (k : string) (v : Value) (m : Object) :
  map_ok m →
  map_at (map_insert k v m) k
  = match map_at m k with Ok x => Ok x | Throw _ => Ok v end.
Proof.
  assert (key_equiv k k = true) as Hkk by (by apply key_equiv_eq).
  unfold map_ok. induction 1 as [|[k' v'] m Hm IH Hall]; simpl.
  - by rewrite Hkk.
  - destruct (key_less k k') eqn:Hlt; [|destruct (key_less k' k) eqn:Hgt];
      simpl.
    + rewrite Hkk.
      assert (key_equiv k' k = false) as ->.
      { destruct (key_equiv k' k) eqn:He; [|done].
        apply key_equiv_eq in He as ->. by apply key_lt_irrefl in Hlt. }
      rewrite map_at_absent; [done|].
      unfold keys. rewrite list_elem_of_fmap. intros ([k0 v0] & -> & Hin).
      rewrite Forall_forall in Hall. apply Hall in Hin.
      exact (key_lt_asym _ _ Hlt Hin).
    + assert (key_equiv k' k = false) as ->.
      { destruct (key_equiv k' k) eqn:He; [|done].
        apply key_equiv_eq in He as ->. by apply key_lt_irrefl in Hgt. }
      exact IH.
    + assert (k = k') as <- by (by apply key_less_total).
      by rewrite Hkk.
Qed.

Lemma first_entry_cons (k' : string) (v : Value)
    (init : list (string * Value)) (k : string) :
  first_entry ((k', v) :: init) k
  = if key_equiv k' k then Some v else first_entry init k.
Proof.
  simpl. destruct (String.eqb_spec k' k) as [->|Hne].
  - by rewrite (proj2 (key_equiv_eq k k) eq_refl).
  - destruct (key_equiv k' k) eqn:He; [|done].
    apply key_equiv_eq in He. congruence.
Qed.

Lemma map_at_fold_insert (init : list (string * Value)) (k : string) :
  ∀ m : Object,
    map_ok m →
    map_at (fold_left insert_entry init m) k
    = match map_at m k with
      | Ok x => Ok x
      | Throw _ =>
          match first_entry init k with
          | Some x => Ok x
          | None => Throw out_of_range
          end
      end.
Proof.
  induction init as [|[k' v'] init IH]; intros m Hm.
  - simpl. destruct (map_count_at m k) as [[_ [x ->]]|[_ ->]]; done.
  - cbn [fold_left insert_entry].
    rewrite IH by (by apply map_insert_ok).
    rewrite first_entry_cons.
    destruct (key_equiv k' k) eqn:He.
    + apply key_equiv_eq in He as ->.
      rewrite map_at_insert_same by done.
      by destruct (map_at m k).
    + rewrite map_at_insert_other; [done|].
      intros ->. by rewrite (proj2 (key_equiv_eq k' k') eq_refl) in He.
Qed.

(** X19.  Reading an object built from an initializer list: for every
    key [getWithDefault] converts the value of the first entry the list
    gives for that key, wherever the entry stands in the list, and
    returns the default when the list has no entry for the key. *)
Theorem getWithDefault_after_construction {T : Type} `{Castable T}
    (init : list (string * Value)) (k : string) (d : T) :
  getWithDefault (VObject (Object_of_entries init)) k d
  = match first_entry init k with
    | Some x => cast x
    | None => Ok d
    end.
Proof.
  unfold getWithDefault. cbn [getObject mbind result_bind].
  pose proof (map_at_fold_insert init k [] (SSorted_nil _)) as Hat.
  cbn [map_at] in Hat. fold (Object_of_entries init) in Hat.
  destruct (map_count_at (Object_of_entries init) k)
    as [[-> [x Hx]]|[-> Hthrow]]; simpl.
  - rewrite Hx. rewrite Hx in Hat.
    destruct (first_entry init k); [by injection Hat as ->|discriminate].
  - rewrite Hthrow in Hat. by destruct (first_entry init k).
Qed.

(** * Properties of the runtime bindings *)

(** ** Queued events *)

Lemma event_object_entries (type : string) (evt : Value) :
  event_object type evt = VObject [("event", evt); ("type", VString type)].
Proof. reflexivity. Qed.

(** X13.  The object the event callback builds holds exactly the two
    keys ["event"] and ["type"], iterated in that order although
    ["type"] is given first; [getWithDefault] reads the event's type and
    payload back, and answers any other key with the default. *)
Theorem event_object_fields (type : string) (evt : Value) :
  getObject (event_object type evt)
  = Ok [("event", evt); ("type", VString type)] ∧
  (∀ d : string, getWithDefault (event_object type evt) "type" d = Ok type) ∧
  (∀ d : Value, getWithDefault (event_object type evt) "event" d = Ok evt) ∧
  (∀ (k : string) (d : Value),
     k ≠ "event" → k ≠ "type" →
     getWithDefault (event_object type evt) k d = Ok d).
Proof.
  rewrite event_object_entries. repeat split.
  intros k d Hevent Htype.
  unfold getWithDefault. cbn [getObject mbind result_bind map_count].
  destruct (key_equiv "event" k) eqn:He.
  { apply key_equiv_eq in He. congruence. }
  destruct (key_equiv "type" k) eqn:Ht.
  { apply key_equiv_eq in Ht. congruence. }
  reflexivity.
Qed.

Lemma event_object_fields_witness :
  getWithDefault (event_object "meter" (VNumber double_1))
    "source" (VString "none") = Ok (VString "none").
Proof.
  destruct (event_object_fields "meter" (VNumber double_1))
    as (_ & _ & _ & Hother).
  apply Hother; discriminate.
Defined.

(** X14.  An event object renders as a four-line block: the brace, the
    line of ["event"] with the rendered payload, the line of ["type"]
    with the type as it is, and the closing brace. *)
Theorem toString_event_object (type : string) (evt : Value) :
  ∃ s : string,
    toString evt = Ok s ∧
    toString (event_object type evt)
    = Ok ("{" +:+ LF +:+
          "    event: " +:+ s +:+ LF +:+
          "    type: " +:+ type +:+ LF +:+
          "}" +:+ LF).
Proof.
  exists (rendered evt). split; [apply toString_total|].
  rewrite event_object_entries.
  rewrite (toString_Object_lines _
             [object_line "event" (rendered evt); object_line "type" type]).
  - unfold object_line. cbn [String.concat].
    by rewrite !string_app_assoc.
  - repeat constructor.
    + exists (rendered evt). split; [apply toString_total|done].
    + by exists type.
Qed.

Lemma fold_event_callback (queued : list (string * Value)) (batch : Array) :
  fold_left (fun batch '(type, evt) => queued_event_callback batch type evt)
    queued batch
  = batch ++ ((fun te => event_object te.1 te.2) <$> queued).
Proof.
  revert batch. induction queued as [|[type evt] queued IH]; intros batch.
  - simpl. by rewrite app_nil_r.
  - cbn [fold_left]. rewrite IH. unfold queued_event_callback.
    by rewrite <- app_assoc.
Qed.

(** X15.  Whatever calls the runtime makes to the event callback, the
    batch ends up holding one event object per call, in the order of the
    calls; with no call it stays the empty array. *)
Theorem queued_events_batch_in_order (queued : list (string * Value)) :
  queued_events_batch queued
  = (fun te => event_object te.1 te.2) <$> queued.
Proof. unfold queued_events_batch. by rewrite fold_event_callback. Qed.

(** ** The table of channel pointers *)

Lemma array_store_ok {A : Type} (arr : list A) (i : N) (x : A) :
  (N.to_nat i < length arr)%nat →
  array_store arr i x = Ok (<[N.to_nat i := x]> arr).
Proof.
  intros Hi. unfold array_store, vector_size.
  by destruct (N.ltb_spec i (N.of_nat (length arr))); [|lia].
Qed.

Lemma array_store_past_end {A : Type} (arr : list A) (i : N) (x : A) :
  (length arr ≤ N.to_nat i)%nat →
  array_store arr i x = Throw index_past_end.
Proof.
  intros Hi. unfold array_store, vector_size.
  by destruct (N.ltb_spec i (N.of_nat (length arr))); [lia|].
Qed.

(** The loop, started at index [i] for [trips] rounds that stay inside
    the table: it writes the entries [i .. i + trips - 1] and leaves the
    others as they were. *)
Lemma channel_loop_inside (numFrames : N) (trips : nat) :
  ∀ (i : N) (arr : list (option N)),
    (N.to_nat i + trips ≤ length arr)%nat →
    ∃ arr' : list (option N),
      for_from i trips
        (fun i outChans =>
           array_store outChans i (Some (size_mul i numFrames))) arr
      = Ok arr' ∧
      length arr' = length arr ∧
      ∀ j : nat,
        arr' !! j =
          if decide (N.to_nat i ≤ j < N.to_nat i + trips)%nat
          then Some (Some (size_mul (N.of_nat j) numFrames))
          else arr !! j.
Proof.
  induction trips as [|trips IH]; intros i arr Hfit.
  - exists arr. repeat split. intros j.
    destruct (decide _) as [?|_]; [lia|done].
  - cbn [for_from]. rewrite array_store_ok by lia.
    cbn [mbind result_bind].
    destruct (IH (N.succ i)
                (<[N.to_nat i := Some (size_mul i numFrames)]> arr))
      as (arr' & Hrun & Hlen & Hget).
    { rewrite length_insert. lia. }
    exists arr'. split; [exact Hrun|].
    rewrite length_insert in Hlen. split; [exact Hlen|].
    intros j. rewrite Hget.
    destruct (decide (j = N.to_nat i)) as [->|Hne].
    + rewrite N2Nat.id.
      destruct (decide _) as [?|_]; [lia|].
      destruct (decide _) as [_|?]; [|lia].
      apply list_lookup_insert_eq. lia.
    + rewrite list_lookup_insert_ne by done.
      destruct (decide _) as [?|?]; destruct (decide _) as [?|?];
        try done; lia.
Qed.

(** The loop, when its rounds run past the end of the table. *)
Lemma channel_loop_overrun (numFrames : N) (trips : nat) :
  ∀ (i : N) (arr : list (option N)),
    (N.to_nat i ≤ length arr)%nat →
    (length arr < N.to_nat i + trips)%nat →
    for_from i trips
      (fun i outChans =>
         array_store outChans i (Some (size_mul i numFrames))) arr
    = Throw index_past_end.
Proof.
  induction trips as [|trips IH]; intros i arr Hi Hover; [lia|].
  cbn [for_from].
  destruct (decide (N.to_nat i = length arr)) as [Hend|Hin].
  - by rewrite array_store_past_end by lia.
  - rewrite array_store_ok by lia. cbn [mbind result_bind].
    apply IH; rewrite length_insert; lia.
Qed.

(** X16.  With at most 32 channels the loop fills the table without
    leaving it: entry [i] of each channel [i] points [i * numFrames]
    samples (computed in [size_t]) into the buffer, and the entries from
    [numChannels] on are not written. *)
Theorem channel_pointers_inside (numChannels numFrames : N) :
  numChannels ≤ 32 →
  ∃ outChans : list (option N),
    channel_pointers numChannels numFrames = Ok outChans ∧
    length outChans = 32%nat ∧
    (∀ i : N, i < numChannels →
       vector_at outChans i = Ok (Some (size_mul i numFrames))) ∧
    (∀ i : N, numChannels ≤ i → i < 32 → vector_at outChans i = Ok None).
Proof.
  intros Hchans. unfold channel_pointers, for_range.
  destruct (channel_loop_inside numFrames (N.to_nat numChannels) 0
              (replicate CHANNEL_TABLE_SIZE None))
    as (arr' & Hrun & Hlen & Hget).
  { rewrite length_replicate. unfold CHANNEL_TABLE_SIZE. lia. }
  exists arr'. split; [exact Hrun|].
  rewrite length_replicate in Hlen. split; [exact Hlen|].
  split; intros i; unfold vector_at; rewrite Hget.
  - intros Hi. destruct (decide _) as [_|?]; [|lia]. by rewrite N2Nat.id.
  - intros Hlo Hhi. destruct (decide _) as [?|_]; [lia|].
    rewrite lookup_replicate_2; [done|]. unfold CHANNEL_TABLE_SIZE. lia.
Qed.

Lemma channel_pointers_inside_witness :
  ∃ outChans : list (option N),
    channel_pointers 2 512 = Ok outChans ∧
    length outChans = 32%nat ∧
    (∀ i : N, i < 2 →
       vector_at outChans i = Ok (Some (size_mul i 512))) ∧
    (∀ i : N, 2 ≤ i → i < 32 → vector_at outChans i = Ok None).
Proof. apply (channel_pointers_inside 2 512). lia. Defined.

(** X17.  With more than 32 channels the loop stores past the end of
    the 32-entry table: nothing bounds [numChannels] before the loop. *)
Theorem channel_pointers_overrun (numChannels numFrames : N) :
  32 < numChannels →
  channel_pointers numChannels numFrames = Throw index_past_end.
Proof.
  intros Hchans. unfold channel_pointers, for_range.
  apply channel_loop_overrun;
    rewrite length_replicate; unfold CHANNEL_TABLE_SIZE; lia.
Qed.

Lemma channel_pointers_overrun_witness :
  channel_pointers 33 512 = Throw index_past_end.
Proof. apply (channel_pointers_overrun 33 512). lia. Defined.



(** * Worked examples *)

(** [std::to_string] on numbers and promoted booleans. *)
Example to_string_samples :
  to_string_double double_1 = "1.000000" ∧
  to_string_double (double_of_bits 0xBFF8000000000000) = "-1.500000" ∧
  to_string_double double_42 = "42.000000" ∧
  to_string_double (double_of_bits 0x3FB999999999999A) = "0.100000" ∧
  to_string_double (double_of_bits 0x3EB0C6F7A0B5ED8D) = "0.000001" ∧
  to_string_double (double_of_bits 0x3EA0C6F7A0B5ED8D) = "0.000000" ∧
  to_string_double (double_of_bits 0x3FE0000000000000) = "0.500000" ∧
  to_string_double (double_of_bits 0x8000000000000000) = "-0.000000" ∧
  to_string_float float_1 = "1.000000" ∧
  to_string_float (float_of_bits 0x3DCCCCCD) = "0.100000" ∧
  to_string_int (Z.b2z true) = "1" ∧ to_string_int (Z.b2z false) = "0".
Proof. vm_compute. repeat split; reflexivity. Qed.

(** NaN and the infinities render as words. *)
Example toString_non_finite :
  toString (VNumber double_nan) = Ok "nan" ∧
  toString (VNumber double_inf) = Ok "inf" ∧
  toString (VNumber double_neg_inf) = Ok "-inf".
Proof. vm_compute. repeat split; reflexivity. Qed.

Example toString_scalars :
  toString Value_default = Ok "undefined" ∧
  toString VNull = Ok "null" ∧
  toString (VBoolean true) = Ok "1" ∧
  toString (VString "hello") = Ok "hello" ∧
  toString (VFunction (HostCallable 0)) = Ok "[Object Function]".
Proof. vm_compute. repeat split; reflexivity. Qed.

(** The empty sequence: the subtraction [s.size() - 2] wraps around and
    [substr] keeps the whole stream. *)
Example toString_empty_sequences :
  toString (VArray []) = Ok "[]" ∧ toString (VFloat32Array []) = Ok "[]".
Proof. vm_compute. repeat split; reflexivity. Qed.

Example toString_five_numbers :
  toString (VArray [VNumber double_1; VNumber double_2; VNumber double_3;
                    VNumber double_4; VNumber double_5])
  = Ok "[1.000000, 2.000000, 3.000000, ...]".
Proof. vm_compute. reflexivity. Qed.

Example toString_float_buffer :
  toString (VFloat32Array [float_1; float_half; float_1; float_half])
  = Ok "[1.000000, 0.500000, 1.000000, ...]" ∧
  toString (VFloat32Array [float_1; float_half])
  = Ok "[1.000000, 0.500000]".
Proof. vm_compute. repeat split; reflexivity. Qed.

(** The object [{"b": 2, "a": 1}]: the line of ["a"] comes first. *)
Example toString_object_b_a :
  toString (VObject (Object_of_entries
                       [("b", VNumber double_2); ("a", VNumber double_1)]))
  = Ok ("{" +:+ LF +:+
        "    a: 1.000000" +:+ LF +:+
        "    b: 2.000000" +:+ LF +:+
        "}" +:+ LF).
Proof. vm_compute. reflexivity. Qed.

(** An initializer list that repeats a key keeps the first entry. *)
Example Object_of_entries_repeated_key :
  Object_of_entries [("k", VNull); ("k", VBoolean true)] = [("k", VNull)].
Proof. vm_compute. reflexivity. Qed.

Example getWithDefault_samples :
  getWithDefault (VObject (Object_of_entries [("x", VString "s")]))
    "x" double_5 = Throw bad_variant_access ∧
  getWithDefault VNull "x" double_5 = Throw bad_variant_access ∧
  getWithDefault (VObject []) "x" (VString "fallback")
  = Ok (VString "fallback").
Proof. vm_compute. repeat split; reflexivity. Qed.

Example toStringVector_samples :
  toStringVector (VNumber double_1) = Ok [] ∧
  toStringVector (Value_of_string_vector ["a"; "b"]) = Ok ["a"; "b"] ∧
  toStringVector (VArray [VNumber double_1; VArray [VNull]])
  = Ok ["1.000000"; "[null]"].
Proof. vm_compute. repeat split; reflexivity. Qed.

Example toString_three_strings :
  toString (VArray [VString "1"; VString "2"; VString "3"])
  = Ok "[1, 2, 3]" ∧
  toString (VArray [VString "only"]) = Ok "[only]".
Proof. vm_compute. repeat split; reflexivity. Qed.
